(** * guac: the [files] command of the pubsub test driver

    A shallow embedding of [cmd/pubsub_test/cmd/files.go]: flag validation,
    the closures wired into the collector / processor / ingestor pipeline,
    the graph assembler with its index bootstrap, and the join barrier that
    ends the command.

    Strings are Go strings (byte sequences), a Go [error] value is
    [option error] with [None] for [nil], and every call that leaves the file
    (logger, bus, graph database, process exit) is recorded in a trace of
    events whose results are supplied by an environment of oracles. *)

From Stdlib Require Import String List Lia.
From stdpp Require Import base list strings gmap.

Local Open Scope string_scope.
Local Open Scope list_scope.

(** ** Go strings *)

Module GoStrings.

(** [s[i:]] for [i <= len s]. *)
Fixpoint drop_bytes (i : nat) (s : string) : string :=
  match i, s with
  | O, _ => s
  | S i', String _ s' => drop_bytes i' s'
  | S _, EmptyString => EmptyString
  end.

(** [strings.HasSuffix]:
    [len(s) >= len(suffix) && s[len(s)-len(suffix):] == suffix]. *)
Definition HasSuffix (s suffix : string) : bool :=
  Nat.leb (String.length suffix) (String.length s)
  && String.eqb (drop_bytes (String.length s - String.length suffix) s) suffix.

End GoStrings.
Export GoStrings.

(** ** Errors *)

Inductive error : Type :=
| errors_New (msg : string)                    (* errors.New(msg) *)
| fmt_Errorf (msg : string)                    (* fmt.Errorf(msg), no verb *)
| fmt_Errorf_w (msg : string) (cause : error)  (* fmt.Errorf(msg + ": %w", cause) *)
| foreign_error (msg : string).                (* produced outside this file *)

(** ** Options and flag validation *)

Record options : Type := mkOptions {
  dbAddr : string;
  user : string;
  pass : string;
  realm : string;
  keyPath : string;   (* path to the pem file *)
  keyID : string;     (* ID related to the key being stored *)
  path : string       (* path to folder with documents to collect *)
}.

(** [var opts options]: every field is the empty string. *)
Definition zero_options : options := mkOptions "" "" "" "" "" "" "".

Definition set_dbAddr (v : string) (o : options) : options :=
  mkOptions v (user o) (pass o) (realm o) (keyPath o) (keyID o) (path o).
Definition set_user (v : string) (o : options) : options :=
  mkOptions (dbAddr o) v (pass o) (realm o) (keyPath o) (keyID o) (path o).
Definition set_pass (v : string) (o : options) : options :=
  mkOptions (dbAddr o) (user o) v (realm o) (keyPath o) (keyID o) (path o).
Definition set_realm (v : string) (o : options) : options :=
  mkOptions (dbAddr o) (user o) (pass o) v (keyPath o) (keyID o) (path o).
Definition set_keyPath (v : string) (o : options) : options :=
  mkOptions (dbAddr o) (user o) (pass o) (realm o) v (keyID o) (path o).
Definition set_keyID (v : string) (o : options) : options :=
  mkOptions (dbAddr o) (user o) (pass o) (realm o) (keyPath o) v (path o).
Definition set_path (v : string) (o : options) : options :=
  mkOptions (dbAddr o) (user o) (pass o) (realm o) (keyPath o) (keyID o) v.

(** [s != ""] *)
Definition nonempty (s : string) : bool := negb (String.eqb s "").

(** [args[0]], read only under the guard [len(args) == 1]. *)
Definition index0 (args : list string) : string :=
  match args with
  | a :: _ => a
  | [] => ""
  end.

(** [validateFlags], statement by statement.  The first [if] either updates
    [opts] and falls through ([inl]) or returns early ([inr]). *)
Definition validateFlags (user pass dbAddr realm keyPath keyID : string)
    (args : list string) : options * option error :=
  let opts := zero_options in
  let opts := set_user user opts in
  let opts := set_pass pass opts in
  let opts := set_dbAddr dbAddr opts in
  let opts := set_realm realm opts in
  let after_key : options + options * option error :=
    if nonempty keyPath then
      if HasSuffix keyPath "pem" then inl (set_keyPath keyPath opts)
      else inr (opts, Some (errors_New "key must be passed in as a pem file"))
    else inl opts in
  match after_key with
  | inr early => early
  | inl opts =>
      let opts := if nonempty keyPath then set_keyID keyID opts else opts in
      if negb (Nat.eqb (length args) 1) then
        (opts, Some (fmt_Errorf "expected positional argument for file_path"))
      else
        let opts := set_path (index0 args) opts in
        (opts, None)
  end.

(** The options after the first four assignments of [validateFlags]. *)
Definition base_options (user pass dbAddr realm : string) : options :=
  mkOptions dbAddr user pass realm "" "" "".

(** ** The process monad

    A computation reads the trace of calls made so far, extends it, and
    either returns a value or ends the whole process ([os.Exit]). *)

Inductive outcome (A : Type) : Type :=
| Returned (a : A)
| Exited (code : nat).
Arguments Returned {A} a.
Arguments Exited {A} code.

Definition proc (Ev A : Type) : Type := list Ev -> list Ev * outcome A.

Definition ret {Ev A} (a : A) : proc Ev A := fun t => (t, Returned a).

Definition bind {Ev A B} (k : A -> proc Ev B) (m : proc Ev A) : proc Ev B :=
  fun t =>
    match m t with
    | (t', Returned a) => k a t'
    | (t', Exited c) => (t', Exited c)
    end.

#[global] Instance proc_ret {Ev} : MRet (proc Ev) := @ret Ev.
#[global] Instance proc_bind {Ev} : MBind (proc Ev) := @bind Ev.

(** A call that leaves the file: the event is appended to the trace and the
    result is what the callee answers after the history [t]. *)
Definition call {Ev A} (ev : Ev) (answer : list Ev -> A) : proc Ev A :=
  fun t => (t ++ [ev], Returned (answer t)).

(** [os.Exit(code)] *)
Definition os_Exit {Ev A} (code : nat) : proc Ev A := fun t => (t, Exited code).

(** [for _, x := range xs { if err := body(x); err != nil { return err } };
    return nil] *)
Fixpoint range_until_err {Ev X} (body : X -> proc Ev (option error))
    (xs : list X) : proc Ev (option error) :=
  match xs with
  | [] => ret None
  | x :: rest =>
      err ← body x;
      match err with
      | Some e => ret (Some e)
      | None => range_until_err body rest
      end
  end.

(** A loop body that is one outside call per element, and the statement that
    every call of such a loop over [xs], started after the history [t],
    succeeds. *)
Definition call_each {Ev X} (ev : X -> Ev) (answer : list Ev -> X -> option error)
    (x : X) : proc Ev (option error) :=
  call (ev x) (fun t => answer t x).

Definition all_succeed {Ev X} (ev : X -> Ev) (answer : list Ev -> X -> option error)
    (t : list Ev) (xs : list X) : Prop :=
  forall pre x post, xs = pre ++ x :: post -> answer (t ++ (ev <$> pre)) x = None.

(** ** The index table of [createIndices] *)

Definition indices : gmap string (list string) :=
  list_to_map
    [ ("Artifact", ["digest"; "name"]);
      ("Package", ["purl"; "name"]);
      ("Metadata", ["id"]);
      ("Attestation", ["digest"]);
      ("Vulnerability", ["id"]) ].

(** [visit] is a possible order for [for k, v := range m]: every entry of
    the map exactly once. *)
Definition range_order {V} (m : gmap string V) (visit : list (string * V)) : Prop :=
  visit ≡ₚ map_to_list m.

(** The (label, attribute) pairs [createIndices] asks for when it visits the
    table in the order [visit]. *)
Definition index_entries (visit : list (string * list string)) : list (string * string) :=
  visit ≫= (fun entry : string * list string =>
              let (label, attributes) := entry in pair label <$> attributes).

(** The index entries the pipeline requires: Artifact(digest,name),
    Package(purl,name), Metadata(id), Attestation(digest), Vulnerability(id). *)
Definition required_indices : list (string * string) :=
  [ ("Artifact", "digest"); ("Artifact", "name");
    ("Package", "purl"); ("Package", "name");
    ("Metadata", "id");
    ("Attestation", "digest");
    ("Vulnerability", "id") ].

(** ** Data that crosses the pipeline *)

Section Pipeline.

(** Types declared in packages outside this file. *)
Context {Document DocumentTree GuacNode GuacEdge Client : Type}.

(** [assembler.Graph] *)
Record Graph : Type := mkGraph {
  Nodes : list GuacNode;
  Edges : list GuacEdge
}.

(** Modelled from the spec: [assembler.Graph.AppendGraph] is not part of
    this file.  A MergedGraph is "formed by concatenating their node and
    edge collections", with "no deduplication or identity-based merge". *)
Definition AppendGraph (combined g : Graph) : Graph :=
  mkGraph (Nodes combined ++ Nodes g) (Edges combined ++ Edges g).

(** [graphdb.CreateAuthTokenWithUsernameAndPassword(user, pass, realm)] *)
Record AuthToken : Type := CreateAuthTokenWithUsernameAndPassword {
  token_user : string;
  token_pass : string;
  token_realm : string
}.

Inductive event : Type :=
| EvPrintf (format : string) (err : error)          (* fmt.Printf *)
| EvHelp                                            (* cmd.Help() *)
| EvInfo (msg : string)                             (* logger.Info *)
| EvErrorf (format : string) (err : error)          (* logger.Errorf *)
| EvNewFileCollector (path : string)                (* file.NewFileCollector *)
| EvRegisterDocumentCollector                       (* collector.RegisterDocumentCollector *)
| EvJetStreamInit                                   (* jetStream.JetStreamInit *)
| EvRecreateStream                                  (* jetStream.RecreateStream *)
| EvCollectorPublish (d : Document)                 (* collector.Publish *)
| EvEmitterPublish (subject : string) (payload : list Byte.byte)  (* emitter.Publish *)
| EvNewGraphClient (addr : string) (token : AuthToken)            (* graphdb.NewGraphClient *)
| EvCreateIndexOn (client : Client) (label attribute : string)    (* assembler.CreateIndexOn *)
| EvStoreGraph (g : Graph) (client : Client).                     (* assembler.StoreGraph *)

Definition trace : Type := list event.

(** What the collaborators answer.  Every answer may depend on the calls
    made before it. *)
Record Env : Type := mkEnv {
  SubjectNameDocProcessed : string;
  json_Marshal : DocumentTree -> list Byte.byte + error;
  RegisterDocumentCollector_err : trace -> option error;
  JetStreamInit_err : trace -> option error;
  RecreateStream_err : trace -> option error;
  collector_Publish_err : trace -> Document -> option error;
  emitter_Publish_err : trace -> string -> list Byte.byte -> option error;
  NewGraphClient_res : trace -> string -> AuthToken -> Client + error;
  CreateIndexOn_err : trace -> Client -> string -> string -> option error;
  StoreGraph_err : trace -> Graph -> Client -> option error
}.

Variable E : Env.

Definition logger_Info (msg : string) : proc event unit :=
  call (EvInfo msg) (fun _ => tt).
Definition logger_Errorf (format : string) (err : error) : proc event unit :=
  call (EvErrorf format err) (fun _ => tt).
Definition collector_Publish (d : Document) : proc event (option error) :=
  call (EvCollectorPublish d) (fun t => collector_Publish_err E t d).
Definition emitter_Publish (subject : string) (payload : list Byte.byte)
    : proc event (option error) :=
  call (EvEmitterPublish subject payload)
       (fun t => emitter_Publish_err E t subject payload).
Definition NewGraphClient (addr : string) (token : AuthToken)
    : proc event (Client + error) :=
  call (EvNewGraphClient addr token) (fun t => NewGraphClient_res E t addr token).
Definition CreateIndexOn (client : Client) (label attribute : string)
    : proc event (option error) :=
  call (EvCreateIndexOn client label attribute)
       (fun t => CreateIndexOn_err E t client label attribute).
Definition index_answer (client : Client) (t : trace) (entry : string * string)
    : option error :=
  let (label, attribute) := entry in CreateIndexOn_err E t client label attribute.
Definition StoreGraph (g : Graph) (client : Client) : proc event (option error) :=
  call (EvStoreGraph g client) (fun t => StoreGraph_err E t g client).

(** Reading a trace: the documents offered to the bus, oldest first, and
    the events of a run of index creations or of publications. *)
Definition offered (t : trace) : list Document :=
  omap (fun ev => match ev with EvCollectorPublish d => Some d | _ => None end) t.
Definition index_event (client : Client) (entry : string * string) : event :=
  let (label, attribute) := entry in EvCreateIndexOn client label attribute.
Definition index_events (client : Client) (entries : list (string * string)) : trace :=
  index_event client <$> entries.
Definition publish_events (docs : list Document) : trace :=
  EvCollectorPublish <$> docs.

(** ** The closures of [filesCmd.Run] *)

Definition processorTransportFunc (d : DocumentTree) : proc event (option error) :=
  match json_Marshal E d with
  | inr err => ret (Some (fmt_Errorf_w "failed marshal of document" err))
  | inl docTreeBytes =>
      err ← emitter_Publish (SubjectNameDocProcessed E) docTreeBytes;
      match err with
      | Some e => ret (Some e)
      | None => ret None
      end
  end.

Definition ingestorTransportFunc
    (assemblerFunc : list Graph -> proc event (option error))
    (d : list Graph) : proc event (option error) :=
  err ← assemblerFunc d;
  match err with
  | Some e => ret (Some e)
  | None => ret None
  end.

(** [getCollectorPublish]: the closure it returns. *)
Definition collectorPubFunc (d : Document) : proc event (option error) :=
  collector_Publish d.

Definition emit (d : Document) : proc event (option error) :=
  err ← collectorPubFunc d;
  match err with
  | Some e => logger_Errorf "collector ended with error: %v" e;; os_Exit 1
  | None => ret None
  end.

Definition errHandler (err : option error) : proc event bool :=
  match err with
  | None => logger_Info "collector ended gracefully";; ret true
  | Some e => logger_Errorf "collector ended with error: %v" e;; ret false
  end.

(** ** The graph assembler *)

(** The closure returned by [getAssembler]; [client] is the variable it
    captures. *)
Definition combined (gs : list Graph) : Graph :=
  fold_left AppendGraph gs (mkGraph [] []).

Definition assemblerFunc (client : Client) (gs : list Graph)
    : proc event (option error) :=
  err ← StoreGraph (combined gs) client;
  match err with
  | Some e => ret (Some e)
  | None => ret None
  end.

(** [createIndices].  Go visits the entries of a map in an unspecified
    order; [visit] is the order taken by this execution of
    [range indices] (see [range_order]). *)
Definition createIndices (visit : list (string * list string))
    (client : Client) : proc event (option error) :=
  range_until_err
    (fun entry : string * list string =>
       let (label, attributes) := entry in
       range_until_err (fun attribute => CreateIndexOn client label attribute)
                       attributes)
    visit.

Definition getAssembler (visit : list (string * list string)) (opts : options)
    : proc event (option (list Graph -> proc event (option error)) * option error) :=
  let authToken :=
    CreateAuthTokenWithUsernameAndPassword (user opts) (pass opts) (realm opts) in
  r ← NewGraphClient (dbAddr opts) authToken;
  match r with
  | inr err => ret (None, Some err)
  | inl client =>
      err ← createIndices visit client;
      match err with
      | Some e => ret (None, Some e)
      | None => ret (Some (assemblerFunc client), None)
      end
  end.

(** ** The collector driver *)

(** Modelled from the spec: [collector.Collect] is not part of this file.
    "The driver calls emit once per discovered document, synchronously, and
    aborts enumeration immediately if emit returns an error.  After
    enumeration finishes (including on an internal collector error), onDone
    receives the terminal error (or no error)."  [docs] are the documents
    the registered collectors discover, in order, and [terminal] is the
    error they end with.  The spec leaves open what the driver returns
    after [onDone]; here it returns the terminal error exactly when
    [onDone] reports that the run was not graceful. *)
Definition Collect (docs : list Document) (terminal : option error)
    (emit : Document -> proc event (option error))
    (onDone : option error -> proc event bool) : proc event (option error) :=
  err ← range_until_err emit docs;
  match err with
  | Some e => ret (Some e)
  | None =>
      graceful ← onDone terminal;
      ret (if graceful : bool then None else terminal)
  end.

(** ** [filesCmd.Run] up to the construction of the pipeline (lines 69-120)

    The flag values read through viper are the arguments.  The context
    value only carries the logger and the bus connection, which are the
    trace here.  [getCollectorPublish] makes no call and never fails; the
    closure it returns is [collectorPubFunc]. *)
Definition Run_setup (visit : list (string * list string))
    (gdbuser gdbpass gdbaddr realm keyPath keyID : string) (args : list string)
    : proc event (options * option (list Graph -> proc event (option error))) :=
  let (opts, err) := validateFlags gdbuser gdbpass gdbaddr realm keyPath keyID args in
  match err with
  | Some e =>
      call (EvPrintf "unable to validate flags: %v\n" e) (fun _ => tt);;
      call EvHelp (fun _ => tt);;
      os_Exit 1
  | None =>
      call (EvNewFileCollector (path opts)) (fun _ => tt);;
      err ← call EvRegisterDocumentCollector (RegisterDocumentCollector_err E);
      match err with
      | Some e => logger_Errorf "unable to register file collector: %v" e
      | None => ret tt
      end;;
      err ← call EvJetStreamInit (JetStreamInit_err E);
      match err with
      | Some e =>
          logger_Errorf "jetStream initialization failed with error: %v" e;;
          os_Exit 1
      | None =>
          err ← call EvRecreateStream (RecreateStream_err E);
          match err with
          | Some e => logger_Errorf "unexpected error recreating jetstream: %v" e
          | None => ret tt
          end;;
          r ← getAssembler visit opts;
          match r with
          | (_, Some e) => logger_Errorf "error: %v" e;; os_Exit 1
          | (assemblerFunc, None) => ret (opts, assemblerFunc)
          end
      end
  end.

End Pipeline.

(** ** The join barrier of [filesCmd.Run] (lines 174-197)

    Three threads of control share a [sync.WaitGroup]: the main goroutine,
    the goroutine around [processorFunc] and the goroutine around
    [ingestorFunc].  A schedule is a list of moves; each move lets one thread
    take its next step, and is refused when that thread is blocked, has
    ended, or the process has exited. *)

Module Barrier.

Inductive main_pc : Type :=
| AtAdd1        (* line 175: wg.Add(1) *)
| AtGo1         (* line 176: go func() { ... processorFunc() ... }() *)
| AtAdd2        (* line 184: wg.Add(1) *)
| AtGo2         (* line 185: go func() { ... ingestorFunc() ... }() *)
| AtCollect     (* line 193: collector.Collect(ctx, emit, errHandler) *)
| AtWait        (* line 197: wg.Wait() *)
| RunReturned.  (* line 198: Run has returned *)

Inductive worker_pc : Type :=
| NotStarted      (* the go statement has not run yet *)
| InLoop          (* inside processorFunc() / ingestorFunc() *)
| LoopReturned    (* the loop returned, its error (if any) was logged;
                     the deferred wg.Done() is still to run *)
| GoroutineDone.  (* wg.Done() ran, the goroutine is over *)

(** How the call of [collector.Collect] at line 193 ends. *)
Inductive collect_end : Type :=
| CollectNil      (* returns nil *)
| CollectErr      (* returns an error: logger.Fatal ends the process *)
| CollectExit.    (* emit called os.Exit(1) *)

Inductive move : Type :=
| MainStep (c : collect_end)
| ProcessorStep
| IngestorStep.

Inductive milestone : Type :=
| CollectorReturned
| ProcessorLoopReturned
| IngestorLoopReturned
| PipelineCompleted
| ProcessExited.

Record state : Type := mkState {
  pc_main : main_pc;
  pc_processor : worker_pc;
  pc_ingestor : worker_pc;
  wg : Z;                       (* the WaitGroup counter *)
  exited : bool;                (* the process is gone *)
  history : list milestone      (* newest first *)
}.

Definition init : state := mkState AtAdd1 NotStarted NotStarted 0 false [].

(** A worker goroutine: [defer wg.Done(); err := loop(); if err != nil
    { log }].  [wg.Done()] on a zero counter panics. *)
Definition worker_step (reached : milestone) (pc : worker_pc) (counter : Z)
    (h : list milestone) : option (worker_pc * Z * bool * list milestone) :=
  match pc with
  | NotStarted => None
  | InLoop => Some (LoopReturned, counter, false, reached :: h)
  | LoopReturned =>
      if (counter - 1 <? 0)%Z
      then Some (LoopReturned, (counter - 1)%Z, true, ProcessExited :: h)
      else Some (GoroutineDone, (counter - 1)%Z, false, h)
  | GoroutineDone => None
  end.

Definition step (m : move) (s : state) : option state :=
  if exited s then None else
  match m with
  | MainStep c =>
      match pc_main s with
      | AtAdd1 =>
          Some (mkState AtGo1 (pc_processor s) (pc_ingestor s) (wg s + 1) false (history s))
      | AtGo1 =>
          Some (mkState AtAdd2 InLoop (pc_ingestor s) (wg s) false (history s))
      | AtAdd2 =>
          Some (mkState AtGo2 (pc_processor s) (pc_ingestor s) (wg s + 1) false (history s))
      | AtGo2 =>
          Some (mkState AtCollect (pc_processor s) InLoop (wg s) false (history s))
      | AtCollect =>
          match c with
          | CollectNil =>
              Some (mkState AtWait (pc_processor s) (pc_ingestor s) (wg s) false
                            (CollectorReturned :: history s))
          | CollectErr =>
              Some (mkState AtCollect (pc_processor s) (pc_ingestor s) (wg s) true
                            (ProcessExited :: CollectorReturned :: history s))
          | CollectExit =>
              Some (mkState AtCollect (pc_processor s) (pc_ingestor s) (wg s) true
                            (ProcessExited :: history s))
          end
      | AtWait =>
          if (wg s =? 0)%Z
          then Some (mkState RunReturned (pc_processor s) (pc_ingestor s) (wg s) false
                             (PipelineCompleted :: history s))
          else None
      | RunReturned => None
      end
  | ProcessorStep =>
      match worker_step ProcessorLoopReturned (pc_processor s) (wg s) (history s) with
      | Some (pc, counter, gone, h) =>
          Some (mkState (pc_main s) pc (pc_ingestor s) counter gone h)
      | None => None
      end
  | IngestorStep =>
      match worker_step IngestorLoopReturned (pc_ingestor s) (wg s) (history s) with
      | Some (pc, counter, gone, h) =>
          Some (mkState (pc_main s) (pc_processor s) pc counter gone h)
      | None => None
      end
  end.

Fixpoint run (schedule : list move) (s : state) : option state :=
  match schedule with
  | [] => Some s
  | m :: rest =>
      match step m s with
      | Some s' => run rest s'
      | None => None
      end
  end.

(** What the program counters say about the WaitGroup. *)
Definition past_add1 (pc : main_pc) : bool :=
  match pc with AtAdd1 => false | _ => true end.
Definition past_go1 (pc : main_pc) : bool :=
  match pc with AtAdd1 | AtGo1 => false | _ => true end.
Definition past_add2 (pc : main_pc) : bool :=
  match pc with AtAdd1 | AtGo1 | AtAdd2 => false | _ => true end.
Definition past_go2 (pc : main_pc) : bool :=
  match pc with AtAdd1 | AtGo1 | AtAdd2 | AtGo2 => false | _ => true end.
Definition past_collect (pc : main_pc) : bool :=
  match pc with AtWait | RunReturned => true | _ => false end.
Definition loop_returned (pc : worker_pc) : bool :=
  match pc with LoopReturned | GoroutineDone => true | _ => false end.

(** The share of the counter held for one worker: one from its [Add]
    until its [Done]. *)
Definition pending (added : bool) (pc : worker_pc) : Z :=
  if added then match pc with GoroutineDone => 0 | _ => 1 end else 0.

Definition invariant (s : state) : Prop :=
  wg s = (pending (past_add1 (pc_main s)) (pc_processor s)
          + pending (past_add2 (pc_main s)) (pc_ingestor s))%Z ∧
  (past_go1 (pc_main s) = false → pc_processor s = NotStarted) ∧
  (past_go2 (pc_main s) = false → pc_ingestor s = NotStarted) ∧
  (loop_returned (pc_processor s) = true → ProcessorLoopReturned ∈ history s) ∧
  (loop_returned (pc_ingestor s) = true → IngestorLoopReturned ∈ history s) ∧
  (past_collect (pc_main s) = true → CollectorReturned ∈ history s) ∧
  (pc_main s = RunReturned →
   pc_processor s = GoroutineDone ∧ pc_ingestor s = GoroutineDone ∧
   ∃ h, history s = PipelineCompleted :: h ∧ CollectorReturned ∈ h ∧
        ProcessorLoopReturned ∈ h ∧ IngestorLoopReturned ∈ h).

End Barrier.

(** ** Reading the trace of the setup *)

Section SetupReading.

Context {Document DocumentTree GuacNode GuacEdge Client : Type}.
Variable E : @Env Document DocumentTree GuacNode GuacEdge Client.

(** The log line of an error that is reported and then ignored. *)
Definition logged (format : string) (err : option error)
    : list (@event Document GuacNode GuacEdge Client) :=
  match err with
  | Some e => [EvErrorf format e]
  | None => []
  end.

(** The history in front of [jetStream.JetStreamInit] (line 96) when [Run]
    starts after [t] with validated options [opts]. *)
Definition history_at_init (t : trace) (opts : options) : trace :=
  (t ++ [EvNewFileCollector (path opts); EvRegisterDocumentCollector])
  ++ logged "unable to register file collector: %v"
            (RegisterDocumentCollector_err E (t ++ [EvNewFileCollector (path opts)])).

(** The history in front of [getAssembler] (line 116). *)
Definition history_at_client (t : trace) (opts : options) : trace :=
  (history_at_init t opts ++ [EvJetStreamInit; EvRecreateStream])
  ++ logged "unexpected error recreating jetstream: %v"
            (RecreateStream_err E (history_at_init t opts ++ [EvJetStreamInit])).

(** The database clients a trace opens, oldest first. *)
Definition client_calls (t : @trace Document GuacNode GuacEdge Client)
    : list (string * AuthToken) :=
  omap (fun ev => match ev with
                  | EvNewGraphClient addr token => Some (addr, token)
                  | _ => None
                  end) t.

End SetupReading.

(** ** Accounting for the barrier *)

Module BarrierAccounting.
Import Barrier.


Definition started (pc : worker_pc) : bool :=
  match pc with NotStarted => false | _ => true end.

Definition alive_invariant (s : state) : Prop :=
  (past_go1 (pc_main s) = true → started (pc_processor s) = true) ∧
  (past_go2 (pc_main s) = true → started (pc_ingestor s) = true) ∧
  (exited s = true → pc_main s = AtCollect ∧ ProcessExited ∈ history s) ∧
  (exited s = false → ProcessExited ∉ history s) ∧
  (PipelineCompleted ∈ history s → pc_main s = RunReturned).

End BarrierAccounting.

(** ** A concrete environment

    Documents and document trees are strings, nodes are strings, edges are
    pairs of node names, the database client is a number.  The bus refuses
    the document ["broken"], the encoder refuses the empty tree, and the
    database refuses to index ["Metadata"] when asked through client [7]. *)

Module Demo.

Definition node : Type := string.
Definition edge : Type := string * string.

Definition marshal (d : string) : list Byte.byte + error :=
  if String.eqb d "" then inr (foreign_error "json: unsupported value")
  else inl (list_byte_of_string d).

Definition env : @Env string string node edge nat :=
  mkEnv "DOCUMENTS.processed"
        marshal
        (fun _ => None)
        (fun _ => None)
        (fun _ => None)
        (fun _ d => if String.eqb d "broken"
                    then Some (foreign_error "nats: timeout") else None)
        (fun _ _ _ => None)
        (fun _ addr _ => if String.eqb addr ""
                         then inr (foreign_error "no address") else inl (String.length addr))
        (fun _ client label _ =>
           if Nat.eqb client 7 && String.eqb label "Metadata"
           then Some (foreign_error "index refused") else None)
        (fun _ _ _ => None).

Definition g1 : @Graph node edge := mkGraph ["a"; "b"] [("a", "b")].
Definition g2 : @Graph node edge := mkGraph ["c"] [("c", "a")].

Definition docs : list string := ["a.json"; "broken"; "c.json"].

Definition opts : options :=
  mkOptions "neo4j://localhost:7687" "neo4j" "secret" "neo4j" "" "" "./docs".

(** Seven bytes of address: the client that refuses ["Metadata"]. *)
Definition opts7 : options :=
  mkOptions "bolt://" "neo4j" "secret" "neo4j" "" "" "./docs".

(** A schedule in which the collector is done before either loop
    returns. *)
Definition collector_first : list Barrier.move :=
  [ Barrier.MainStep Barrier.CollectNil; Barrier.MainStep Barrier.CollectNil;
    Barrier.MainStep Barrier.CollectNil; Barrier.MainStep Barrier.CollectNil;
    Barrier.MainStep Barrier.CollectNil;
    Barrier.IngestorStep; Barrier.ProcessorStep;
    Barrier.ProcessorStep; Barrier.IngestorStep;
    Barrier.MainStep Barrier.CollectNil ].

(** The state that schedule ends in. *)
Definition completed : Barrier.state :=
  Barrier.mkState Barrier.RunReturned Barrier.GoroutineDone Barrier.GoroutineDone 0 false
    [ Barrier.PipelineCompleted; Barrier.ProcessorLoopReturned;
      Barrier.IngestorLoopReturned; Barrier.CollectorReturned ].

(** The collector fails while both loops are running: [logger.Fatal]. *)
Definition fatal_collect : list Barrier.move :=
  [ Barrier.MainStep Barrier.CollectNil; Barrier.MainStep Barrier.CollectNil;
    Barrier.MainStep Barrier.CollectNil; Barrier.MainStep Barrier.CollectNil;
    Barrier.MainStep Barrier.CollectErr ].

Definition aborted : Barrier.state :=
  Barrier.mkState Barrier.AtCollect Barrier.InLoop Barrier.InLoop 2 true
    [ Barrier.ProcessExited; Barrier.CollectorReturned ].

(** The collector is done and the main goroutine waits for both loops. *)
Definition until_wait : list Barrier.move :=
  [ Barrier.MainStep Barrier.CollectNil; Barrier.MainStep Barrier.CollectNil;
    Barrier.MainStep Barrier.CollectNil; Barrier.MainStep Barrier.CollectNil;
    Barrier.MainStep Barrier.CollectNil ].

Definition waiting : Barrier.state :=
  Barrier.mkState Barrier.AtWait Barrier.InLoop Barrier.InLoop 2 false
    [ Barrier.CollectorReturned ].

End Demo.

(** * Properties *)

(** ** Go strings *)

Lemma drop_bytes_append (p s : string) :
  drop_bytes (String.length p) (p +:+ s) = s.
Proof. induction p as [|c p IH]; simpl; [by destruct s | exact IH]. Qed.

Lemma drop_bytes_split (i : nat) (s : string) :
  ∃ p, s = p +:+ drop_bytes i s ∧ String.length p = Nat.min i (String.length s).
Proof.
  revert s; induction i as [|i IH]; intros s.
  - exists ""; by destruct s.
  - destruct s as [|c s]; simpl.
    + by exists "".
    + destruct (IH s) as (p & Hp & Hlen).
      exists (String c p); split; [| by simpl; rewrite Hlen].
      change (String c s = String c (p +:+ drop_bytes i s)); by f_equal.
Qed.

Lemma length_append (p s : string) :
  String.length (p +:+ s) = String.length p + String.length s.
Proof. induction p as [|c p IH]; simpl; [done | by rewrite IH]. Qed.

(** [HasSuffix s suffix] holds exactly when [s] is some prefix followed by
    [suffix]. *)
Lemma HasSuffix_spec (s suffix : string) :
  HasSuffix s suffix = true ↔ ∃ p, s = p +:+ suffix.
Proof.
  unfold HasSuffix; rewrite andb_true_iff, Nat.leb_le, String.eqb_eq; split.
  - intros [_ Heq].
    destruct (drop_bytes_split (String.length s - String.length suffix) s) as (p & Hp & _).
    exists p; by rewrite Heq in Hp.
  - intros [p ->]; rewrite length_append; split; [lia |].
    replace (String.length p + String.length suffix - String.length suffix)
      with (String.length p) by lia.
    apply drop_bytes_append.
Qed.

Lemma nonempty_true (s : string) : nonempty s = true ↔ s ≠ "".
Proof.
  unfold nonempty; rewrite negb_true_iff; split.
  - intros H ->; discriminate.
  - intros H; apply String.eqb_neq; exact H.
Qed.

(** Ending in [".pem"] is stronger than what [validateFlags] asks for. *)
Lemma HasSuffix_dot_pem (s : string) :
  HasSuffix s ".pem" = true → HasSuffix s "pem" = true.
Proof.
  rewrite !HasSuffix_spec; intros [p ->]; exists (p +:+ ".").
  induction p as [|c p IH]; [done |].
  change (String c (p +:+ ".pem") = String c ((p +:+ ".") +:+ "pem")).
  by rewrite IH.
Qed.

(** ** Flag validation *)

Lemma validateFlags_bad_key user pass dbAddr realm keyPath keyID args :
  nonempty keyPath = true → HasSuffix keyPath "pem" = false →
  validateFlags user pass dbAddr realm keyPath keyID args =
    (base_options user pass dbAddr realm,
     Some (errors_New "key must be passed in as a pem file")).
Proof. intros Hne Hsuf; unfold validateFlags; by rewrite Hne, Hsuf. Qed.

Lemma validateFlags_good_key user pass dbAddr realm keyPath keyID args :
  nonempty keyPath = false ∨ HasSuffix keyPath "pem" = true →
  validateFlags user pass dbAddr realm keyPath keyID args =
    (let opts := base_options user pass dbAddr realm in
     let opts := if nonempty keyPath then set_keyID keyID (set_keyPath keyPath opts)
                 else opts in
     if Nat.eqb (length args) 1 then (set_path (index0 args) opts, None)
     else (opts, Some (fmt_Errorf "expected positional argument for file_path"))).
Proof.
  intros Hok; unfold validateFlags.
  destruct (nonempty keyPath) eqn:Hne.
  - destruct Hok as [?| ->]; [done |]. by destruct (Nat.eqb (length args) 1).
  - by destruct (Nat.eqb (length args) 1).
Qed.

(** C2, as stated, fails: the key path ["keypem"] is not empty and does not
    end in [".pem"], yet flag validation accepts it. *)
Lemma validateFlags_dot_pem_counterexample :
  "keypem" ≠ "" ∧ HasSuffix "keypem" ".pem" = false ∧
  snd (validateFlags "neo4j" "secret" "neo4j://localhost:7687" "neo4j"
                     "keypem" "key-1" ["./docs"]) = None.
Proof. repeat split; [discriminate | reflexivity..]. Qed.

(** C8: whenever the positional arguments are not exactly one,
    [validateFlags] returns an error; with exactly one argument and a key path
    that is empty or ends in ["pem"], it returns no error and the options'
    [path] is that argument. *)
Theorem validateFlags_positional user pass dbAddr realm keyPath keyID args :
  (length args ≠ 1 →
   snd (validateFlags user pass dbAddr realm keyPath keyID args) ≠ None) ∧
  (∀ a, args = [a] → keyPath = "" ∨ HasSuffix keyPath "pem" = true →
     snd (validateFlags user pass dbAddr realm keyPath keyID args) = None ∧
     path (fst (validateFlags user pass dbAddr realm keyPath keyID args)) = a).
Proof.
  split.
  - intros Hlen.
    destruct (nonempty keyPath) eqn:Hne, (HasSuffix keyPath "pem") eqn:Hsuf;
      try (rewrite validateFlags_bad_key by done; done);
      (rewrite validateFlags_good_key by auto);
      apply Nat.eqb_neq in Hlen; rewrite Hlen; by destruct (nonempty keyPath).
  - intros a -> Hok.
    rewrite validateFlags_good_key.
    + by destruct (nonempty keyPath).
    + destruct Hok as [-> | ?]; auto.
Qed.

Lemma validateFlags_positional_witness :
  snd (validateFlags "neo4j" "secret" "bolt://db" "neo4j" "" "" []) ≠ None ∧
  snd (validateFlags "neo4j" "secret" "bolt://db" "neo4j" "" "" ["a"; "b"]) ≠ None ∧
  snd (validateFlags "neo4j" "secret" "bolt://db" "neo4j" "k.pem" "id" ["./docs"]) = None ∧
  path (fst (validateFlags "neo4j" "secret" "bolt://db" "neo4j" "k.pem" "id" ["./docs"]))
    = "./docs".
Proof.
  split; [| split].
  - apply (validateFlags_positional "neo4j" "secret" "bolt://db" "neo4j" "" "" []).
    simpl; lia.
  - apply (validateFlags_positional "neo4j" "secret" "bolt://db" "neo4j" "" "" ["a"; "b"]).
    simpl; lia.
  - apply (validateFlags_positional "neo4j" "secret" "bolt://db" "neo4j" "k.pem" "id"
             ["./docs"]); [reflexivity | right; reflexivity].
Defined.

(** C10: with an empty key path the returned options carry an empty key
    identifier whatever [keyID] was passed; in general the identifier is
    copied exactly when the key path is non-empty and passes the suffix
    test. *)
Theorem validateFlags_keyID user pass dbAddr realm id args :
  keyID (fst (validateFlags user pass dbAddr realm "" id args)) = "" ∧
  ∀ key,
    keyID (fst (validateFlags user pass dbAddr realm key id args)) =
      if nonempty key && HasSuffix key "pem" then id else "".
Proof.
  split.
  - rewrite validateFlags_good_key by (left; reflexivity).
    by destruct (Nat.eqb (length args) 1).
  - intros key.
    destruct (nonempty key) eqn:Hne, (HasSuffix key "pem") eqn:Hsuf;
      try (rewrite validateFlags_bad_key by done; done);
      (rewrite validateFlags_good_key by auto); rewrite Hne;
      by destruct (Nat.eqb (length args) 1).
Qed.

(** ** The process monad *)

Ltac proc_unfold :=
  unfold mbind, proc_bind, bind, mret, proc_ret, ret, call, os_Exit.

Lemma bind_returned {Ev A B} (m : proc Ev A) (k : A → proc Ev B) t t' a :
  m t = (t', Returned a) → (m ≫= k) t = k a t'.
Proof. intros H; proc_unfold; by rewrite H. Qed.

Lemma bind_exited {Ev A B} (m : proc Ev A) (k : A → proc Ev B) t t' c :
  m t = (t', Exited c) → (m ≫= k) t = (t', Exited c).
Proof. intros H; proc_unfold; by rewrite H. Qed.

Lemma range_until_err_nil {Ev X} (body : X → proc Ev (option error)) t :
  range_until_err body [] t = (t, Returned None).
Proof. reflexivity. Qed.

Lemma range_until_err_ok {Ev X} (body : X → proc Ev (option error)) x rest t t' :
  body x t = (t', Returned None) →
  range_until_err body (x :: rest) t = range_until_err body rest t'.
Proof. intros H; simpl; by rewrite (bind_returned _ _ _ _ _ H). Qed.

Lemma range_until_err_err {Ev X} (body : X → proc Ev (option error)) x rest t t' e :
  body x t = (t', Returned (Some e)) →
  range_until_err body (x :: rest) t = (t', Returned (Some e)).
Proof. intros H; simpl; by rewrite (bind_returned _ _ _ _ _ H). Qed.

Lemma range_until_err_exit {Ev X} (body : X → proc Ev (option error)) x rest t t' c :
  body x t = (t', Exited c) →
  range_until_err body (x :: rest) t = (t', Exited c).
Proof. intros H; simpl; by rewrite (bind_exited _ _ _ _ _ H). Qed.

Section PipelineProperties.

Context {Document DocumentTree GuacNode GuacEdge Client : Type}.
Variable E : @Env Document DocumentTree GuacNode GuacEdge Client.

Local Abbreviation Trace := (@trace Document GuacNode GuacEdge Client).
Implicit Types (t : Trace).
Implicit Types (g : @Graph GuacNode GuacEdge) (gs : list (@Graph GuacNode GuacEdge)).

(** C2 (amended): for every non-empty key path that does not end with the
    suffix ["pem"], [validateFlags] returns the key error, and [Run] prints
    it, shows the help and exits with status 1 without making any other
    call: no collector is created and the bus is never initialised. *)
Theorem validateFlags_rejects_non_pem visit user pass dbAddr realm keyPath keyID args t :
  keyPath ≠ "" → HasSuffix keyPath "pem" = false →
  snd (validateFlags user pass dbAddr realm keyPath keyID args)
    = Some (errors_New "key must be passed in as a pem file") ∧
  Run_setup E visit user pass dbAddr realm keyPath keyID args t
    = (t ++ [EvPrintf "unable to validate flags: %v\n"
                      (errors_New "key must be passed in as a pem file");
             EvHelp],
       Exited 1).
Proof.
  intros Hne%nonempty_true Hsuf; unfold Run_setup.
  rewrite validateFlags_bad_key by done; split; [done |].
  proc_unfold; simpl; by rewrite <- app_assoc.
Qed.

(** C6: the terminal handler answers [true] exactly for the nil error and
    [false] exactly for a non-nil one. *)
Theorem errHandler_true_iff_nil (err : option error) t :
  (snd (errHandler err t) = Returned true ↔ err = None) ∧
  (snd (errHandler err t) = Returned false ↔ err ≠ None).
Proof. destruct err as [e|]; simpl; split; split; done. Qed.

(** C7: when marshalling the tree fails, the transport function returns the
    wrapped error and makes no call at all; when it succeeds, the bytes are
    published once on the processed-document subject and the publisher's
    answer is returned as it is. *)
Theorem processorTransportFunc_spec (d : DocumentTree) t :
  match json_Marshal E d with
  | inr err =>
      processorTransportFunc E d t
        = (t, Returned (Some (fmt_Errorf_w "failed marshal of document" err)))
  | inl docTreeBytes =>
      processorTransportFunc E d t
        = (t ++ [EvEmitterPublish (SubjectNameDocProcessed E) docTreeBytes],
           Returned (emitter_Publish_err E t (SubjectNameDocProcessed E) docTreeBytes))
  end.
Proof.
  unfold processorTransportFunc.
  destruct (json_Marshal E d) as [bytes | err]; [| done].
  proc_unfold; simpl.
  by destruct (emitter_Publish_err E t (SubjectNameDocProcessed E) bytes).
Qed.

(** ** Merging fragments *)

Lemma fold_AppendGraph gs g :
  fold_left AppendGraph gs g
    = mkGraph (Nodes g ++ concat (Nodes <$> gs)) (Edges g ++ concat (Edges <$> gs)).
Proof.
  revert g; induction gs as [|h gs IH]; intros g; simpl.
  - rewrite !app_nil_r; by destruct g.
  - rewrite IH; simpl; by rewrite <- !app_assoc.
Qed.

Lemma combined_concat gs :
  combined gs = mkGraph (concat (Nodes <$> gs)) (concat (Edges <$> gs)).
Proof. unfold combined; by rewrite fold_AppendGraph. Qed.

Lemma assemblerFunc_run (client : Client) gs t :
  assemblerFunc E client gs t
    = (t ++ [EvStoreGraph (combined gs) client],
       Returned (StoreGraph_err E t (combined gs) client)).
Proof.
  unfold assemblerFunc; proc_unfold; simpl.
  by destruct (StoreGraph_err E t (combined gs) client).
Qed.

(** C1: for every sequence of fragments the store function makes exactly
    one call, a [StoreGraph] on its client, with the graph whose nodes are
    the fragments' nodes concatenated in input order and whose edges are
    the fragments' edges concatenated in input order; it returns what that
    call returns. *)
Theorem assemblerFunc_stores_concatenation (client : Client) gs t :
  ∃ merged,
    Nodes merged = concat (Nodes <$> gs) ∧
    Edges merged = concat (Edges <$> gs) ∧
    assemblerFunc E client gs t
      = (t ++ [EvStoreGraph merged client],
         Returned (StoreGraph_err E t merged client)).
Proof.
  exists (combined gs); rewrite assemblerFunc_run, combined_concat; done.
Qed.

(** C4: for two orderings of the same fragments, the graphs handed to the
    database have the same nodes and the same edges as sets (indeed as
    multisets). *)
Theorem assemblerFunc_order_insensitive (client : Client) gs1 gs2 t1 t2 :
  gs1 ≡ₚ gs2 →
  ∃ m1 m2,
    fst (assemblerFunc E client gs1 t1) = t1 ++ [EvStoreGraph m1 client] ∧
    fst (assemblerFunc E client gs2 t2) = t2 ++ [EvStoreGraph m2 client] ∧
    (∀ n, n ∈ Nodes m1 ↔ n ∈ Nodes m2) ∧
    (∀ e, e ∈ Edges m1 ↔ e ∈ Edges m2) ∧
    Nodes m1 ≡ₚ Nodes m2 ∧ Edges m1 ≡ₚ Edges m2.
Proof.
  intros Hperm; exists (combined gs1), (combined gs2).
  rewrite !assemblerFunc_run, !combined_concat; simpl.
  assert (HN : concat (Nodes <$> gs1) ≡ₚ concat (Nodes <$> gs2)) by by rewrite Hperm.
  assert (HE : concat (Edges <$> gs1) ≡ₚ concat (Edges <$> gs2)) by by rewrite Hperm.
  split; [done |]. split; [done |].
  split; [intros n; by rewrite HN |].
  split; [intros e; by rewrite HE |]. done.
Qed.

(** ** Fatal publish abort *)

Lemma emit_ok (d : Document) t :
  collector_Publish_err E t d = None →
  emit E d t = (t ++ [EvCollectorPublish d], Returned None).
Proof.
  intros H; unfold emit, collectorPubFunc, collector_Publish; proc_unfold; simpl.
  by rewrite H.
Qed.

Lemma emit_fail (d : Document) t e :
  collector_Publish_err E t d = Some e →
  emit E d t
    = (t ++ [EvCollectorPublish d; EvErrorf "collector ended with error: %v" e],
       Exited 1).
Proof.
  intros H; unfold emit, collectorPubFunc, collector_Publish, logger_Errorf.
  proc_unfold; simpl; rewrite H; simpl; by rewrite <- app_assoc.
Qed.

Lemma enumeration_aborts pre : ∀ (d : Document) post e t,
  (∀ p1 x p2, pre = p1 ++ x :: p2 →
     collector_Publish_err E (t ++ publish_events p1) x = None) →
  collector_Publish_err E (t ++ publish_events pre) d = Some e →
  range_until_err (emit E) (pre ++ d :: post) t
    = (t ++ publish_events (pre ++ [d])
         ++ [EvErrorf "collector ended with error: %v" e],
       Exited 1).
Proof.
  induction pre as [|x pre IH]; intros d post e t Hok Hfail;
    unfold publish_events in *; cbn [app fmap list_fmap] in *.
  - rewrite app_nil_r in Hfail.
    by rewrite (range_until_err_exit _ _ _ _ _ _ (emit_fail _ _ _ Hfail)).
  - assert (Hx : collector_Publish_err E t x = None).
    { specialize (Hok [] x pre eq_refl); by rewrite app_nil_r in Hok. }
    rewrite (range_until_err_ok _ _ _ _ _ (emit_ok _ _ Hx)).
    rewrite (IH d post e (t ++ [EvCollectorPublish x])).
    + by rewrite <- !app_assoc.
    + intros p1 y p2 ->.
      specialize (Hok (x :: p1) y p2 eq_refl).
      by rewrite <- app_assoc.
    + by rewrite <- app_assoc.
Qed.

Lemma offered_app t1 t2 : offered (t1 ++ t2) = offered t1 ++ offered t2.
Proof. apply omap_app. Qed.

Lemma offered_publish_events (docs : list Document) :
  offered (publish_events docs : Trace) = docs.
Proof. induction docs as [|d docs IH]; simpl; [done | by rewrite IH]. Qed.

(** C3: if the bus accepts the first [N-1] documents and refuses the [N]-th,
    the collector run ends the process with status 1 right there: exactly
    the first [N] documents have been offered to the bus, in order, and
    nothing after the [N]-th is touched (the only later event is the error
    log line). *)
Theorem emit_failure_aborts_enumeration (docs pre post : list Document)
    (d : Document) (terminal : option error) (e : error) t :
  docs = pre ++ d :: post →
  (∀ p1 x p2, pre = p1 ++ x :: p2 →
     collector_Publish_err E (t ++ publish_events p1) x = None) →
  collector_Publish_err E (t ++ publish_events pre) d = Some e →
  let N := S (length pre) in
  Collect docs terminal (emit E) errHandler t
    = (t ++ publish_events (take N docs)
         ++ [EvErrorf "collector ended with error: %v" e],
       Exited 1) ∧
  offered (fst (Collect docs terminal (emit E) errHandler t))
    = offered t ++ take N docs ∧
  length (take N docs) = N.
Proof.
  intros -> Hok Hfail N.
  assert (Htake : take N (pre ++ d :: post) = pre ++ [d]).
  { unfold N. rewrite (take_app_ge pre) by lia.
    replace (S (length pre) - length pre) with 1 by lia. done. }
  assert (Hrun : Collect (pre ++ d :: post) terminal (emit E) errHandler t
            = (t ++ publish_events (pre ++ [d])
                 ++ [EvErrorf "collector ended with error: %v" e], Exited 1)).
  { unfold Collect.
    by rewrite (bind_exited _ _ _ _ _ (enumeration_aborts pre d post e t Hok Hfail)). }
  rewrite Htake, Hrun; simpl; split; [done | split].
  - by rewrite !offered_app, offered_publish_events, app_nil_r.
  - rewrite length_app; simpl; unfold N; lia.
Qed.

End PipelineProperties.

(** ** Loops of calls *)

Lemma range_until_err_app {Ev X} (body : X → proc Ev (option error)) xs ys t :
  range_until_err body (xs ++ ys) t =
    match range_until_err body xs t with
    | (t', Returned None) => range_until_err body ys t'
    | stopped => stopped
    end.
Proof.
  revert t; induction xs as [|x xs IH]; intros t; [done |].
  cbn [app range_until_err]; proc_unfold.
  destruct (body x t) as [t' [[e|] | c]]; [done | apply IH | done].
Qed.

Lemma range_until_err_fmap {Ev X Y} (f : X → Y) (body : Y → proc Ev (option error)) xs t :
  range_until_err body (f <$> xs) t = range_until_err (fun x => body (f x)) xs t.
Proof.
  revert t; induction xs as [|x xs IH]; intros t; [done |].
  cbn [fmap list_fmap range_until_err]; proc_unfold.
  destruct (body (f x) t) as [t' [[e|] | c]]; [done | apply IH | done].
Qed.

(** A loop nested in a loop is one loop over the flattened list. *)
Lemma range_until_err_nested {Ev X Y} (f : X → list Y)
    (body : Y → proc Ev (option error)) xs t :
  range_until_err (fun x => range_until_err body (f x)) xs t
    = range_until_err body (xs ≫= f) t.
Proof.
  revert t; induction xs as [|x xs IH]; intros t; [done |].
  rewrite bind_cons, range_until_err_app.
  cbn [range_until_err]; proc_unfold.
  destruct (range_until_err body (f x) t) as [t' [[e|] | c]]; [done | apply IH | done].
Qed.

Section LoopOfCalls.

Context {Ev X : Type} (ev : X → Ev) (answer : list Ev → X → option error).

Local Abbreviation body := (call_each ev answer).
Local Abbreviation all_succeed := (all_succeed ev answer).

Lemma all_succeed_cons t x xs :
  all_succeed t (x :: xs) ↔ answer t x = None ∧ all_succeed (t ++ [ev x]) xs.
Proof.
  unfold all_succeed; split.
  - intros H; split.
    + specialize (H [] x xs eq_refl); by rewrite app_nil_r in H.
    + intros pre y post ->. specialize (H (x :: pre) y post eq_refl).
      by rewrite <- app_assoc.
  - intros [Hx H] [|x' pre] y post Heq; simplify_eq/=.
    + by rewrite app_nil_r.
    + specialize (H pre y post eq_refl). by rewrite <- app_assoc in H.
Qed.

Lemma range_calls_ok xs : ∀ t,
  all_succeed t xs →
  range_until_err body xs t = (t ++ (ev <$> xs), Returned None).
Proof.
  induction xs as [|x xs IH]; intros t Hall.
  - by rewrite app_nil_r.
  - apply all_succeed_cons in Hall as [Hx Hall].
    rewrite (range_until_err_ok body x xs t (t ++ [ev x])).
    + rewrite (IH _ Hall); cbn [fmap list_fmap]; by rewrite <- app_assoc.
    + unfold call_each; proc_unfold; by rewrite Hx.
Qed.

Lemma range_calls_err pre : ∀ x post e t,
  all_succeed t pre →
  answer (t ++ (ev <$> pre)) x = Some e →
  range_until_err body (pre ++ x :: post) t
    = (t ++ (ev <$> pre ++ [x]), Returned (Some e)).
Proof.
  intros x post e t Hall Hfail.
  rewrite range_until_err_app, (range_calls_ok pre t Hall).
  rewrite (range_until_err_err body x post _ (t ++ (ev <$> pre) ++ [ev x]) e).
  - by rewrite fmap_app.
  - unfold call_each; proc_unfold; by rewrite Hfail, <- app_assoc.
Qed.

(** Either every call succeeds or there is a first one that fails. *)
Lemma first_failure xs : ∀ t,
  all_succeed t xs ∨
  ∃ pre x post e, xs = pre ++ x :: post ∧ all_succeed t pre ∧
                  answer (t ++ (ev <$> pre)) x = Some e.
Proof.
  induction xs as [|x xs IH]; intros t.
  - left; intros [|??] ???; discriminate.
  - destruct (answer t x) as [e|] eqn:Hx.
    + right; exists [], x, xs, e; split; [done | split].
      * intros [|??] ???; discriminate.
      * by rewrite app_nil_r.
    + destruct (IH (t ++ [ev x])) as [Hall | (pre & y & post & e & -> & Hall & Hy)].
      * left; by apply all_succeed_cons.
      * right; exists (x :: pre), y, post, e; split; [done | split].
        -- by apply all_succeed_cons.
        -- cbn [fmap list_fmap]; by rewrite <- app_assoc in Hy.
Qed.

End LoopOfCalls.

Lemma range_until_err_ext {Ev X} (body1 body2 : X → proc Ev (option error)) xs :
  (∀ x t, body1 x t = body2 x t) →
  ∀ t, range_until_err body1 xs t = range_until_err body2 xs t.
Proof.
  intros Hext; induction xs as [|x xs IH]; intros t; [done |].
  cbn [range_until_err]; proc_unfold; rewrite Hext.
  destruct (body2 x t) as [t' [[e|] | c]]; [done | apply IH | done].
Qed.

(** ** Index bootstrap *)

Lemma index_entries_of_table :
  index_entries (map_to_list indices)
    = [ ("Metadata", "id"); ("Artifact", "digest"); ("Artifact", "name");
        ("Attestation", "digest"); ("Vulnerability", "id");
        ("Package", "purl"); ("Package", "name") ].
Proof. by vm_compute. Qed.

Lemma index_entries_required visit :
  range_order indices visit → index_entries visit ≡ₚ required_indices.
Proof.
  unfold range_order, index_entries; intros ->.
  change (index_entries (map_to_list indices) ≡ₚ required_indices).
  rewrite index_entries_of_table; unfold required_indices.
  apply (bool_decide_unpack _); by vm_compute.
Qed.

Section IndexBootstrap.

Context {Document DocumentTree GuacNode GuacEdge Client : Type}.
Variable E : @Env Document DocumentTree GuacNode GuacEdge Client.

Local Abbreviation Trace := (@trace Document GuacNode GuacEdge Client).
Implicit Types (t : Trace) (client : Client).

Lemma createIndices_flat visit client t :
  createIndices E visit client t
    = range_until_err (call_each (index_event client) (index_answer E client))
                      (index_entries visit) t.
Proof.
  unfold createIndices, index_entries.
  rewrite <- range_until_err_nested.
  apply range_until_err_ext; intros [label attributes] t'.
  by rewrite range_until_err_fmap.
Qed.

(** C5: whatever order the table is visited in, [getAssembler] asks for
    exactly the entries Artifact(digest,name), Package(purl,name),
    Metadata(id), Attestation(digest), Vulnerability(id), each once.  If the
    client opens and every creation succeeds, all seven have been created
    when the store function is returned; if one creation fails, nothing
    more is created and the result is that error with no store function. *)
Theorem getAssembler_creates_indices visit opts t :
  range_order indices visit →
  let token :=
    CreateAuthTokenWithUsernameAndPassword (user opts) (pass opts) (realm opts) in
  let opened : Trace := t ++ [EvNewGraphClient (dbAddr opts) token] in
  index_entries visit ≡ₚ required_indices ∧
  match NewGraphClient_res E t (dbAddr opts) token with
  | inr err => getAssembler E visit opts t = (opened, Returned (None, Some err))
  | inl client =>
      (all_succeed (index_event client) (index_answer E client) opened
                   (index_entries visit) ∧
       getAssembler E visit opts t
         = (opened ++ index_events client (index_entries visit),
            Returned (Some (assemblerFunc E client), None)))
      ∨
      (∃ pre entry post e,
         index_entries visit = pre ++ entry :: post ∧
         all_succeed (index_event client) (index_answer E client) opened pre ∧
         index_answer E client (opened ++ index_events client pre) entry = Some e ∧
         getAssembler E visit opts t
           = (opened ++ index_events client (pre ++ [entry]),
              Returned (None, Some e)))
  end.
Proof.
  intros Hvisit token opened; split; [by apply index_entries_required |].
  unfold getAssembler, NewGraphClient; proc_unfold; cbn [fst snd].
  fold token; fold opened.
  destruct (NewGraphClient_res E t (dbAddr opts) token) as [client | err]; [| done].
  rewrite createIndices_flat.
  destruct (first_failure (index_event client) (index_answer E client)
              (index_entries visit) opened)
    as [Hall | (pre & entry & post & e & Hsplit & Hall & Hfail)].
  - left; split; [done |]. by rewrite (range_calls_ok _ _ _ _ Hall).
  - right; exists pre, entry, post, e; repeat split; try done.
    rewrite Hsplit. by rewrite (range_calls_err _ _ _ _ _ _ _ Hall Hfail).
Qed.

End IndexBootstrap.

(** ** The join barrier *)

Module BarrierProperties.
Import Barrier.

Lemma init_invariant : invariant init.
Proof. unfold invariant; simpl; repeat split; done. Qed.

Lemma step_invariant m s s' : invariant s → step m s = Some s' → invariant s'.
Proof.
  destruct s as [pm pp pi w ex h]; unfold invariant, step; simpl.
  intros (Hwg & Hp & Hi & Hlp & Hli & Hc & Hdone) Hstep.
  destruct ex; [done |].
  destruct m as [c | |], pm, pp, pi; simpl in *;
    try destruct c; simpl in *;
    repeat match goal with
           | H : context [(?a <? ?b)%Z] |- _ => destruct (Z.ltb_spec a b)
           | H : context [(?a =? ?b)%Z] |- _ => destruct (Z.eqb_spec a b)
           end;
    simplify_eq/=; try lia;
    try (specialize (Hp eq_refl)); try (specialize (Hi eq_refl)); try done.
  all: repeat split; intros; try done; try lia;
    try (rewrite ?elem_of_cons; auto; fail).
  all: try (eexists; split; [reflexivity |]; auto).
  all: destruct Hdone as (? & ? & ?); [done | done].
Qed.

Lemma run_invariant schedule : ∀ s s',
  invariant s → run schedule s = Some s' → invariant s'.
Proof.
  induction schedule as [|m schedule IH]; intros s s' Hinv Hrun; simpl in Hrun.
  - by simplify_eq.
  - destruct (step m s) as [s1|] eqn:Hstep; [| done].
    eapply IH; [| exact Hrun]. eapply step_invariant; eauto.
Qed.

(** C9: in every interleaving of the three threads, when [Run] has returned
    the collector driver has returned, both loops have returned and both
    goroutines have called [wg.Done()], all before the completion; and while
    the main goroutine is at [wg.Wait()] with a worker still running it
    cannot move. *)
Theorem drain_barrier schedule s :
  run schedule init = Some s →
  (pc_main s = RunReturned →
   pc_processor s = GoroutineDone ∧ pc_ingestor s = GoroutineDone ∧
   ∃ earlier, history s = PipelineCompleted :: earlier ∧
              CollectorReturned ∈ earlier ∧
              ProcessorLoopReturned ∈ earlier ∧
              IngestorLoopReturned ∈ earlier) ∧
  (pc_main s = AtWait →
   pc_processor s ≠ GoroutineDone ∨ pc_ingestor s ≠ GoroutineDone →
   ∀ c, step (MainStep c) s = None).
Proof.
  intros Hrun.
  pose proof (run_invariant schedule init s init_invariant Hrun)
    as (Hwg & Hp & Hi & Hlp & Hli & Hc & Hdone).
  split; [exact Hdone |].
  intros Hwait Hbusy c; unfold step; rewrite Hwait.
  destruct (exited s); [done |].
  rewrite Hwait in Hwg; simpl in Hwg.
  destruct (Z.eqb_spec (wg s) 0) as [Hzero |]; [| done].
  destruct (pc_processor s), (pc_ingestor s); simpl in Hwg; try lia.
  by destruct Hbusy.
Qed.

End BarrierProperties.

(** ** The properties at work on the concrete environment *)

Lemma validateFlags_rejects_non_pem_witness :
  "key.txt" ≠ "" ∧ HasSuffix "key.txt" "pem" = false ∧
  snd (validateFlags "neo4j" "secret" "bolt://db" "neo4j" "key.txt" "key-1" ["./docs"])
    = Some (errors_New "key must be passed in as a pem file") ∧
  Run_setup Demo.env (map_to_list indices)
            "neo4j" "secret" "bolt://db" "neo4j" "key.txt" "key-1" ["./docs"] []
    = ([EvPrintf "unable to validate flags: %v\n"
                 (errors_New "key must be passed in as a pem file");
        EvHelp],
       Exited 1).
Proof.
  split; [discriminate | split; [reflexivity |]].
  apply (validateFlags_rejects_non_pem Demo.env (map_to_list indices)
           "neo4j" "secret" "bolt://db" "neo4j" "key.txt" "key-1" ["./docs"] []);
    [discriminate | reflexivity].
Defined.

Lemma emit_failure_aborts_enumeration_witness :
  offered (fst (Collect Demo.docs None (emit Demo.env) errHandler []))
    = ["a.json"; "broken"] ∧
  snd (Collect Demo.docs None (emit Demo.env) errHandler []) = Exited 1.
Proof.
  destruct (emit_failure_aborts_enumeration Demo.env Demo.docs
              ["a.json"] ["c.json"] "broken" None (foreign_error "nats: timeout") [])
    as (Hrun & Hoffered & _).
  - reflexivity.
  - intros [|y [|z p1]] x p2 Heq; simplify_eq/=. reflexivity.
  - reflexivity.
  - split; [exact Hoffered | by rewrite Hrun].
Defined.

Lemma assemblerFunc_order_insensitive_witness :
  ∃ m1 m2,
    fst (assemblerFunc Demo.env 1 [Demo.g1; Demo.g2] []) = [EvStoreGraph m1 1] ∧
    fst (assemblerFunc Demo.env 1 [Demo.g2; Demo.g1] []) = [EvStoreGraph m2 1] ∧
    (∀ n, n ∈ Nodes m1 ↔ n ∈ Nodes m2) ∧
    (∀ e, e ∈ Edges m1 ↔ e ∈ Edges m2).
Proof.
  destruct (assemblerFunc_order_insensitive Demo.env 1
              [Demo.g1; Demo.g2] [Demo.g2; Demo.g1] [] [])
    as (m1 & m2 & H1 & H2 & HN & HE & _).
  - apply perm_swap.
  - exists m1, m2; auto.
Defined.

Lemma getAssembler_creates_indices_witness :
  range_order indices (map_to_list indices) ∧
  index_entries (map_to_list indices) ≡ₚ required_indices ∧
  snd (getAssembler Demo.env (map_to_list indices) Demo.opts [])
    = Returned (Some (assemblerFunc Demo.env 22), None).
Proof.
  pose proof (getAssembler_creates_indices Demo.env (map_to_list indices) Demo.opts []
                (Permutation_refl _)) as [Hentries Hrun].
  split; [apply Permutation_refl | split; [exact Hentries |]].
  simpl in Hrun. destruct Hrun as [[_ ->] | (pre & entry & post & e & _ & _ & Hfail & _)].
  - reflexivity.
  - unfold index_answer in Hfail; destruct entry; discriminate.
Defined.

Lemma drain_barrier_witness :
  Barrier.run Demo.collector_first Barrier.init = Some Demo.completed ∧
  Barrier.pc_main Demo.completed = Barrier.RunReturned ∧
  Barrier.pc_processor Demo.completed = Barrier.GoroutineDone ∧
  Barrier.pc_ingestor Demo.completed = Barrier.GoroutineDone.
Proof.
  assert (Hrun : Barrier.run Demo.collector_first Barrier.init = Some Demo.completed)
    by reflexivity.
  split; [exact Hrun |]. split; [reflexivity |].
  destruct (BarrierProperties.drain_barrier Demo.collector_first Demo.completed Hrun)
    as [Hdone _].
  destruct (Hdone eq_refl) as (Hp & Hi & _). split; [exact Hp | exact Hi].
Defined.

(** A refused index creation: the table is visited from ["Metadata"], the
    client refuses it, and nothing else is created. *)
Example getAssembler_refused :
  getAssembler Demo.env (map_to_list indices) Demo.opts7 []
    = ([EvNewGraphClient "bolt://"
          (CreateAuthTokenWithUsernameAndPassword "neo4j" "secret" "neo4j");
        EvCreateIndexOn 7 "Metadata" "id"],
       Returned (None, Some (foreign_error "index refused"))).
Proof. by vm_compute. Qed.

(** Two fragments, one store call. *)
Example assemblerFunc_two_fragments :
  assemblerFunc Demo.env 1 [Demo.g1; Demo.g2] []
    = ([EvStoreGraph (mkGraph ["a"; "b"; "c"] [("a", "b"); ("c", "a")]) 1],
       Returned None).
Proof. reflexivity. Qed.

(** A tree that cannot be encoded is not published. *)
Example processorTransportFunc_unencodable :
  processorTransportFunc Demo.env "" []
    = ([], Returned (Some (fmt_Errorf_w "failed marshal of document"
                             (foreign_error "json: unsupported value")))).
Proof. reflexivity. Qed.

(** While the ingestor loop is still running, [wg.Wait()] does not return. *)
Example wait_blocks :
  Barrier.run [ Barrier.MainStep Barrier.CollectNil; Barrier.MainStep Barrier.CollectNil;
                Barrier.MainStep Barrier.CollectNil; Barrier.MainStep Barrier.CollectNil;
                Barrier.MainStep Barrier.CollectNil;
                Barrier.ProcessorStep; Barrier.ProcessorStep;
                Barrier.MainStep Barrier.CollectNil ] Barrier.init = None.
Proof. reflexivity. Qed.

(** * Further properties of the command *)

(** ** Flag validation *)

Lemma key_passes_iff key :
  nonempty key = false ∨ HasSuffix key "pem" = true ↔
  key = "" ∨ ∃ stem, key = stem +:+ "pem".
Proof.
  rewrite <- HasSuffix_spec.
  assert (nonempty key = false ↔ key = "") as ->; [| done].
  destruct key; simpl; split; done.
Qed.

(** X1: flag validation accepts its input exactly when there is one
    positional argument and the key path is empty or is some prefix followed
    by the three bytes ["pem"]. *)
Theorem validateFlags_accepts_iff u p d r key id args :
  snd (validateFlags u p d r key id args) = None ↔
  length args = 1 ∧ (key = "" ∨ ∃ stem, key = stem +:+ "pem").
Proof.
  rewrite <- key_passes_iff.
  destruct (nonempty key) eqn:Hne, (HasSuffix key "pem") eqn:Hsuf;
    try (rewrite validateFlags_bad_key by done);
    try (rewrite validateFlags_good_key, Hne by auto);
    destruct (Nat.eqb_spec (length args) 1); simpl; naive_solver.
Qed.

(** X2: the two errors are told apart by their cause, and the key error
    comes first: it is returned exactly for a non-empty key path failing the
    suffix test, whatever the arguments; the positional-argument error is
    returned exactly when the key path passes and the arguments are not
    one. *)
Theorem validateFlags_error_cause u p d r key id args :
  (snd (validateFlags u p d r key id args)
     = Some (errors_New "key must be passed in as a pem file")
   ↔ key ≠ "" ∧ HasSuffix key "pem" = false) ∧
  (snd (validateFlags u p d r key id args)
     = Some (fmt_Errorf "expected positional argument for file_path")
   ↔ (key = "" ∨ HasSuffix key "pem" = true) ∧ length args ≠ 1).
Proof.
  pose proof (nonempty_true key) as Hkey.
  destruct (nonempty key) eqn:Hne, (HasSuffix key "pem") eqn:Hsuf;
    try (rewrite validateFlags_bad_key by done);
    try (rewrite validateFlags_good_key, Hne by auto);
    try (assert (key = "") as -> by (destruct key; [done | discriminate]));
    destruct (Nat.eqb_spec (length args) 1); simpl; naive_solver.
Qed.

(** X3: the four connection values are copied into the options whatever
    else happens, and every error leaves the document path empty; the key
    error also leaves both key fields empty. *)
Theorem validateFlags_on_error u p d r key id args :
  let result := validateFlags u p d r key id args in
  (user (fst result) = u ∧ pass (fst result) = p ∧
   dbAddr (fst result) = d ∧ realm (fst result) = r) ∧
  (snd result ≠ None → path (fst result) = "") ∧
  (snd result = Some (errors_New "key must be passed in as a pem file") →
   keyPath (fst result) = "" ∧ keyID (fst result) = "").
Proof.
  destruct (nonempty key) eqn:Hne, (HasSuffix key "pem") eqn:Hsuf;
    try (rewrite validateFlags_bad_key by done);
    try (rewrite validateFlags_good_key, Hne by auto);
    destruct (Nat.eqb (length args) 1); simpl; repeat split; done.
Qed.

(** X4: when validation succeeds the options are the inputs: the four
    connection values, the key path as given, the key identifier if a key
    path was given, and the single argument as the document path. *)
Theorem validateFlags_success_options u p d r key id args :
  snd (validateFlags u p d r key id args) = None →
  ∃ a, args = [a] ∧
       fst (validateFlags u p d r key id args)
         = mkOptions d u p r key (if nonempty key then id else "") a.
Proof.
  destruct (nonempty key) eqn:Hne, (HasSuffix key "pem") eqn:Hsuf;
    try (rewrite validateFlags_bad_key by done; done);
    (rewrite validateFlags_good_key, Hne by auto);
    try (assert (key = "") as -> by (destruct key; [done | discriminate]));
    destruct args as [|a [|b rest]]; simpl; try done;
    intros _; by exists a.
Qed.

Lemma validateFlags_on_error_witness :
  path (fst (validateFlags "neo4j" "secret" "bolt://db" "neo4j" "k.pem" "id" [])) = "" ∧
  keyPath (fst (validateFlags "neo4j" "secret" "bolt://db" "neo4j" "k.txt" "id" ["x"])) = "".
Proof.
  split.
  - apply (validateFlags_on_error "neo4j" "secret" "bolt://db" "neo4j" "k.pem" "id" []).
    discriminate.
  - apply (validateFlags_on_error "neo4j" "secret" "bolt://db" "neo4j" "k.txt" "id" ["x"]).
    reflexivity.
Defined.

Lemma validateFlags_success_options_witness :
  ∃ a, ["./docs"] = [a] ∧
       fst (validateFlags "neo4j" "secret" "bolt://db" "neo4j" "k.pem" "id" ["./docs"])
         = mkOptions "bolt://db" "neo4j" "secret" "neo4j" "k.pem" "id" a.
Proof.
  apply (validateFlags_success_options
           "neo4j" "secret" "bolt://db" "neo4j" "k.pem" "id" ["./docs"]).
  reflexivity.
Defined.

(** ** The closures and the assembler *)

Section PipelineExtras.

Context {Document DocumentTree GuacNode GuacEdge Client : Type}.
Variable E : @Env Document DocumentTree GuacNode GuacEdge Client.

Local Abbreviation Trace := (@trace Document GuacNode GuacEdge Client).
Implicit Types (t : Trace) (client : Client).
Implicit Types (g : @Graph GuacNode GuacEdge) (gs : list (@Graph GuacNode GuacEdge)).

Lemma offered_after_app t1 t2 : offered (t1 ++ t2) = offered t1 ++ offered t2.
Proof. apply omap_app. Qed.

(** X5: [emit] offers exactly one document to the bus per call and never
    hands an error back to the collector: it returns nil when the bus accepts
    the document and ends the process with status 1 when it does not. *)
Theorem emit_never_returns_error (d : Document) t :
  offered (fst (emit E d t)) = offered t ++ [d] ∧
  (snd (emit E d t) = Returned None ↔ collector_Publish_err E t d = None) ∧
  (snd (emit E d t) = Exited 1 ↔ collector_Publish_err E t d ≠ None) ∧
  (∀ e, snd (emit E d t) ≠ Returned (Some e)).
Proof.
  destruct (collector_Publish_err E t d) as [e|] eqn:Hpub.
  - rewrite (emit_fail E d t e Hpub); cbn [fst snd].
    rewrite offered_after_app; repeat split; done.
  - rewrite (emit_ok E d t Hpub); cbn [fst snd].
    rewrite offered_after_app; repeat split; done.
Qed.

Lemma enumeration_completes (docs : list Document) : ∀ t,
  all_succeed EvCollectorPublish (collector_Publish_err E) t docs →
  range_until_err (emit E) docs t = (t ++ publish_events docs, Returned None).
Proof.
  induction docs as [|d docs IH]; intros t Hall.
  - unfold publish_events; simpl; by rewrite app_nil_r.
  - apply all_succeed_cons in Hall as [Hd Hall].
    rewrite (range_until_err_ok _ _ _ _ _ (emit_ok E d t Hd)), (IH _ Hall).
    unfold publish_events; cbn [fmap list_fmap]; by rewrite <- app_assoc.
Qed.

(** The line [errHandler] logs. *)
Lemma errHandler_run (err : option error) t :
  errHandler err t
    = (t ++ [match err with
             | None => EvInfo "collector ended gracefully"
             | Some e => EvErrorf "collector ended with error: %v" e
             end],
       Returned (match err with None => true | Some _ => false end)).
Proof. by destruct err. Qed.

(** X6: when the bus accepts every document, the collector run driven by
    [emit] and [errHandler] offers all the documents, each once and in order,
    then logs the way the collectors ended, and the process is still
    running. *)
Theorem publish_all_offers_all (docs : list Document) (terminal : option error) t :
  all_succeed EvCollectorPublish (collector_Publish_err E) t docs →
  ∃ result,
    Collect docs terminal (emit E) errHandler t
      = (t ++ publish_events docs
           ++ [match terminal with
               | None => EvInfo "collector ended gracefully"
               | Some e => EvErrorf "collector ended with error: %v" e
               end],
         Returned result) ∧
    offered (fst (Collect docs terminal (emit E) errHandler t)) = offered t ++ docs.
Proof.
  intros Hall.
  assert (Hrun : ∃ result, Collect docs terminal (emit E) errHandler t
            = (t ++ publish_events docs
                 ++ [match terminal with
                     | None => EvInfo "collector ended gracefully"
                     | Some e => EvErrorf "collector ended with error: %v" e
                     end], Returned result)).
  { unfold Collect.
    rewrite (bind_returned _ _ _ _ _ (enumeration_completes docs t Hall)).
    rewrite (bind_returned _ _ _ _ _ (errHandler_run terminal _)).
    eexists; proc_unfold; by rewrite <- app_assoc. }
  destruct Hrun as [result Hrun]; exists result; split; [exact Hrun |].
  rewrite Hrun; cbn [fst].
  rewrite !offered_after_app, offered_publish_events.
  destruct terminal; simpl; by rewrite app_nil_r.
Qed.

(** X7: the ingestor's transport function adds nothing to the assembler
    function it wraps: same calls, same result, for every assembler
    function and every batch. *)
Theorem ingestorTransportFunc_transparent
    (f : list (@Graph GuacNode GuacEdge) → proc (@event Document GuacNode GuacEdge Client)
                                                (option error)) gs t :
  ingestorTransportFunc f gs t = f gs t.
Proof.
  unfold ingestorTransportFunc; proc_unfold.
  by destruct (f gs t) as [t' [[e|] | c]].
Qed.

Lemma combined_app gs1 gs2 :
  combined (gs1 ++ gs2) = AppendGraph (combined gs1) (combined gs2).
Proof.
  rewrite !combined_concat; unfold AppendGraph; simpl.
  by rewrite !fmap_app, !concat_app.
Qed.

(** X8: storing two batches as one stores the merge of what each batch
    alone would store, the first batch's nodes and edges first. *)
Theorem assemblerFunc_joined_batches client gs1 gs2 t :
  fst (assemblerFunc E client (gs1 ++ gs2) t)
    = t ++ [EvStoreGraph (AppendGraph (combined gs1) (combined gs2)) client] ∧
  fst (assemblerFunc E client gs1 t) = t ++ [EvStoreGraph (combined gs1) client] ∧
  fst (assemblerFunc E client gs2 t) = t ++ [EvStoreGraph (combined gs2) client].
Proof. by rewrite !assemblerFunc_run, combined_app. Qed.

(** X9: a batch without content, be it no fragment at all or only empty
    fragments, still costs one store call, with the empty graph. *)
Theorem assemblerFunc_empty_batch client gs t :
  (∀ g, g ∈ gs → Nodes g = [] ∧ Edges g = []) →
  assemblerFunc E client gs t
    = (t ++ [EvStoreGraph (mkGraph [] []) client],
       Returned (StoreGraph_err E t (mkGraph [] []) client)).
Proof.
  intros Hempty.
  assert (combined gs = mkGraph [] []) as Hcombined.
  { rewrite combined_concat.
    induction gs as [|g gs IH]; [done |]; cbn [fmap list_fmap concat].
    destruct (Hempty g) as [-> ->]; [by left |]; cbn [app].
    apply IH; intros h Hh; apply Hempty; by right. }
  by rewrite assemblerFunc_run, Hcombined.
Qed.

End PipelineExtras.

(** ** The index table *)





(** ** The setup of [Run] *)

Section SetupExtras.

Context {Document DocumentTree GuacNode GuacEdge Client : Type}.
Variable E : @Env Document DocumentTree GuacNode GuacEdge Client.

Local Abbreviation Trace := (@trace Document GuacNode GuacEdge Client).
Implicit Types (t : Trace) (client : Client).

Lemma Run_setup_rejected visit u p d r key id args t opts e :
  validateFlags u p d r key id args = (opts, Some e) →
  Run_setup E visit u p d r key id args t
    = (t ++ [EvPrintf "unable to validate flags: %v\n" e; EvHelp], Exited 1).
Proof.
  intros Hv; unfold Run_setup; rewrite Hv.
  proc_unfold; simpl; by rewrite <- app_assoc.
Qed.

Lemma Run_setup_validated visit u p d r key id args t opts :
  validateFlags u p d r key id args = (opts, None) →
  Run_setup E visit u p d r key id args t =
    match JetStreamInit_err E (history_at_init E t opts) with
    | Some e =>
        (history_at_init E t opts
           ++ [EvJetStreamInit;
               EvErrorf "jetStream initialization failed with error: %v" e],
         Exited 1)
    | None =>
        match getAssembler E visit opts (history_at_client E t opts) with
        | (t3, Returned (_, Some e)) => (t3 ++ [EvErrorf "error: %v" e], Exited 1)
        | (t3, Returned (f, None)) => (t3, Returned (opts, f))
        | (t3, Exited c) => (t3, Exited c)
        end
    end.
Proof.
  intros Hv; unfold Run_setup; rewrite Hv.
  unfold history_at_client, history_at_init, logged, logger_Errorf.
  proc_unfold; simpl.
  destruct (RegisterDocumentCollector_err E (t ++ [EvNewFileCollector (path opts)]));
    simpl; rewrite <- ?app_assoc; simpl;
    (destruct (JetStreamInit_err E _); simpl; rewrite <- ?app_assoc; simpl; [done |]);
    (destruct (RecreateStream_err E _); simpl; rewrite <- ?app_assoc; simpl);
    by destruct (getAssembler E visit opts _) as [? [[? [?|]] | ?]].
Qed.

Lemma getAssembler_cases visit opts t :
  let token :=
    CreateAuthTokenWithUsernameAndPassword (user opts) (pass opts) (realm opts) in
  let opened : Trace := t ++ [EvNewGraphClient (dbAddr opts) token] in
  (∃ err, getAssembler E visit opts t = (opened, Returned (None, Some err))) ∨
  (∃ client,
     getAssembler E visit opts t
       = (opened ++ index_events client (index_entries visit),
          Returned (Some (assemblerFunc E client), None))) ∨
  (∃ client done e,
     getAssembler E visit opts t
       = (opened ++ index_events client done, Returned (None, Some e))).
Proof.
  intros token opened.
  unfold getAssembler, NewGraphClient; proc_unfold; cbn [fst snd].
  fold token; fold opened.
  destruct (NewGraphClient_res E t (dbAddr opts) token) as [client | err];
    [| left; by exists err].
  right; rewrite createIndices_flat.
  destruct (first_failure (index_event client) (index_answer E client)
              (index_entries visit) opened)
    as [Hall | (pre & entry & post & e & Hsplit & Hall & Hfail)].
  - left; exists client. by rewrite (range_calls_ok _ _ _ _ Hall).
  - right; exists client, (pre ++ [entry]), e.
    rewrite Hsplit. by rewrite (range_calls_err _ _ _ _ _ _ _ Hall Hfail).
Qed.

Lemma client_calls_app t1 t2 :
  client_calls (t1 ++ t2) = client_calls t1 ++ client_calls t2.
Proof. apply omap_app. Qed.

Lemma client_calls_index_events client entries :
  client_calls (index_events client entries : Trace) = [].
Proof.
  induction entries as [|[label attribute] entries IH]; [done | exact IH].
Qed.

Lemma client_calls_history_at_init t opts :
  client_calls (history_at_init E t opts) = client_calls t.
Proof.
  unfold history_at_init, logged; rewrite !client_calls_app.
  destruct (RegisterDocumentCollector_err E _); simpl; by rewrite !app_nil_r.
Qed.

Lemma client_calls_history_at_client t opts :
  client_calls (history_at_client E t opts) = client_calls t.
Proof.
  unfold history_at_client, logged.
  rewrite !client_calls_app, client_calls_history_at_init.
  destruct (RecreateStream_err E _); simpl; by rewrite !app_nil_r.
Qed.

Lemma validateFlags_connection u p d r key id args :
  let opts := fst (validateFlags u p d r key id args) in
  user opts = u ∧ pass opts = p ∧ dbAddr opts = d ∧ realm opts = r.
Proof.
  destruct (nonempty key) eqn:Hne, (HasSuffix key "pem") eqn:Hsuf;
    try (rewrite validateFlags_bad_key by done);
    try (rewrite validateFlags_good_key, Hne by auto);
    destruct (Nat.eqb (length args) 1); simpl; repeat split; done.
Qed.


(** X12: the setup opens the database client at most once, and exactly when
    the flags are valid and the bus initialisation succeeds; a failed
    collector registration or stream re-creation does not prevent it.  The
    client is opened at the flags' address with a token made of the flags'
    user, password and realm. *)
Theorem Run_setup_opens_client visit u p d r key id args t :
  client_calls (fst (Run_setup E visit u p d r key id args t))
    = client_calls t ++
      match snd (validateFlags u p d r key id args),
            JetStreamInit_err E
              (history_at_init E t (fst (validateFlags u p d r key id args))) with
      | None, None => [(d, CreateAuthTokenWithUsernameAndPassword u p r)]
      | _, _ => []
      end.
Proof.
  pose proof (validateFlags_connection u p d r key id args) as Hconn.
  destruct (validateFlags u p d r key id args) as [opts [e|]] eqn:Hv;
    cbn [fst snd] in *.
  { rewrite (Run_setup_rejected _ _ _ _ _ _ _ _ _ _ _ Hv); cbn [fst].
    by rewrite client_calls_app. }
  destruct Hconn as (Hu & Hp & Hd & Hr).
  rewrite (Run_setup_validated _ _ _ _ _ _ _ _ _ _ Hv).
  destruct (JetStreamInit_err E (history_at_init E t opts)) as [e|] eqn:Hinit.
  { cbn [fst]. by rewrite client_calls_app, client_calls_history_at_init. }
  destruct (getAssembler_cases visit opts (history_at_client E t opts))
    as [[err ->] | [[client ->] | (client & done & e & ->)]]; cbn [fst];
    rewrite ?client_calls_app, client_calls_history_at_client,
            ?client_calls_index_events, Hu, Hp, Hd, Hr; simpl;
    by rewrite ?app_nil_r.
Qed.

End SetupExtras.

(** ** The barrier, beyond completion *)

Module BarrierExtras.
Import Barrier BarrierAccounting.

Lemma init_alive : alive_invariant init.
Proof. unfold alive_invariant; simpl; repeat split; try done; set_solver. Qed.

Lemma step_alive m s s' :
  invariant s → alive_invariant s → step m s = Some s' → alive_invariant s'.
Proof.
  destruct s as [pm pp pi w ex h]; unfold invariant, alive_invariant, step; simpl.
  intros (Hwg & Hp & Hi & _ & _ & _ & Hdone) (Hsp & Hsi & _ & Hlive & Hcompleted) Hstep.
  destruct ex; [done |]. specialize (Hlive eq_refl).
  destruct m as [c | |], pm, pp, pi; simpl in *;
    try destruct c; simpl in *;
    repeat match goal with
           | H : context [(?a <? ?b)%Z] |- _ => destruct (Z.ltb_spec a b)
           | H : context [(?a =? ?b)%Z] |- _ => destruct (Z.eqb_spec a b)
           end;
    simplify_eq/=; try lia;
    try (specialize (Hp eq_refl)); try (specialize (Hi eq_refl)); try done.
  all: repeat split; intros; try done; try set_solver.
Qed.

Lemma run_invariants schedule : ∀ s s',
  invariant s → alive_invariant s → run schedule s = Some s' →
  invariant s' ∧ alive_invariant s'.
Proof.
  induction schedule as [|m schedule IH]; intros s s' Hinv Halive Hrun; simpl in Hrun.
  - by simplify_eq.
  - destruct (step m s) as [s1|] eqn:Hstep; [| done].
    apply (IH s1 s'); [| | exact Hrun].
    + eapply BarrierProperties.step_invariant; eauto.
    + eapply step_alive; eauto.
Qed.

Lemma reachable_invariants schedule s :
  run schedule init = Some s → invariant s ∧ alive_invariant s.
Proof.
  apply run_invariants; [apply BarrierProperties.init_invariant | apply init_alive].
Qed.

(** X13: in every interleaving the WaitGroup counter stays between 0 and 2
    and is at least 1 whenever a goroutine is about to run its deferred
    [wg.Done()], so [Done] never hits a zero counter. *)
Theorem waitgroup_counter_in_range schedule s :
  run schedule init = Some s →
  (0 ≤ wg s ≤ 2)%Z ∧
  (pc_processor s = LoopReturned ∨ pc_ingestor s = LoopReturned → (1 ≤ wg s)%Z).
Proof.
  intros Hrun.
  destruct (reachable_invariants schedule s Hrun)
    as [(Hwg & Hp & Hi & _) _].
  destruct s as [pm pp pi w ex h]; simpl in *; subst w.
  split.
  - destruct pm, pp, pi; simpl; lia.
  - intros Hdefer; destruct pm, pp, pi; simpl in *;
      try (specialize (Hp eq_refl)); try (specialize (Hi eq_refl));
      try done; try lia; by destruct Hdefer.
Qed.

(** X14: the process can only end early inside the collector call; when it
    does, the pipeline is never reported complete and no thread moves any
    more, whatever the two loops were doing. *)
Theorem early_exit_only_in_collect schedule s :
  run schedule init = Some s → exited s = true →
  pc_main s = AtCollect ∧ (PipelineCompleted ∉ history s) ∧ ∀ m, step m s = None.
Proof.
  intros Hrun Hexit.
  destruct (reachable_invariants schedule s Hrun)
    as [_ (_ & _ & Hgone & _ & Hcompleted)].
  destruct (Hgone Hexit) as [Hpc _]; split; [exact Hpc | split].
  - intros Hin; apply Hcompleted in Hin; congruence.
  - intros m; unfold step; by rewrite Hexit.
Qed.

(** X15: a worker goroutine is running or over exactly when the main
    goroutine is past its [go] statement; in particular both loops have been
    started whenever the collector call is under way or behind. *)
Theorem goroutines_started_before_collect schedule s :
  run schedule init = Some s →
  started (pc_processor s) = past_go1 (pc_main s) ∧
  started (pc_ingestor s) = past_go2 (pc_main s).
Proof.
  intros Hrun.
  destruct (reachable_invariants schedule s Hrun)
    as [(_ & Hp & Hi & _) (Hsp & Hsi & _)].
  split.
  - destruct (past_go1 (pc_main s)); [by apply Hsp | by rewrite Hp].
  - destruct (past_go2 (pc_main s)); [by apply Hsi | by rewrite Hi].
Qed.




(** X17: the barrier cannot deadlock: as long as the process is alive and
    [Run] has not returned, some thread can take a step; the main goroutine
    is held at [wg.Wait()] only while a loop can still return or a deferred
    [wg.Done()] can still run. *)
Theorem barrier_never_deadlocks schedule s :
  run schedule init = Some s → exited s = false → pc_main s ≠ RunReturned →
  ∃ m s', step m s = Some s'.
Proof.
  intros Hrun Hlive Hpc.
  destruct (reachable_invariants schedule s Hrun)
    as [(Hwg & Hp & Hi & _) (Hsp & Hsi & _)].
  destruct s as [pm pp pi w ex h]; simpl in *; subst ex w.
  destruct pm; try (exists (MainStep CollectNil); unfold step; simpl; eauto; fail);
    [| done].
  specialize (Hsp eq_refl); specialize (Hsi eq_refl).
  destruct pp; try done.
  - exists ProcessorStep; unfold step; simpl; eauto.
  - exists ProcessorStep; unfold step; simpl.
    destruct pi; simpl; eauto.
  - destruct pi; try done.
    + exists IngestorStep; unfold step; simpl; eauto.
    + exists IngestorStep; unfold step; simpl; eauto.
    + exists (MainStep CollectNil); unfold step; simpl; eauto.
Qed.

End BarrierExtras.

Lemma waitgroup_counter_in_range_witness :
  (0 ≤ Barrier.wg Demo.waiting ≤ 2)%Z.
Proof.
  apply (BarrierExtras.waitgroup_counter_in_range Demo.until_wait Demo.waiting).
  reflexivity.
Defined.

Lemma early_exit_only_in_collect_witness :
  Barrier.pc_main Demo.aborted = Barrier.AtCollect ∧
  (Barrier.PipelineCompleted ∉ Barrier.history Demo.aborted) ∧
  ∀ m, Barrier.step m Demo.aborted = None.
Proof.
  apply (BarrierExtras.early_exit_only_in_collect Demo.fatal_collect Demo.aborted);
    reflexivity.
Defined.

Lemma goroutines_started_before_collect_witness :
  BarrierAccounting.started (Barrier.pc_processor Demo.waiting) = true ∧
  BarrierAccounting.started (Barrier.pc_ingestor Demo.waiting) = true.
Proof.
  apply (BarrierExtras.goroutines_started_before_collect Demo.until_wait Demo.waiting).
  reflexivity.
Defined.


Lemma barrier_never_deadlocks_witness :
  ∃ m s', Barrier.step m Demo.waiting = Some s'.
Proof.
  apply (BarrierExtras.barrier_never_deadlocks Demo.until_wait Demo.waiting);
    [reflexivity | reflexivity | discriminate].
Defined.

Lemma publish_all_offers_all_witness :
  offered (fst (Collect ["a.json"; "c.json"] None (emit Demo.env) errHandler []))
    = ["a.json"; "c.json"].
Proof.
  destruct (publish_all_offers_all Demo.env ["a.json"; "c.json"] None [])
    as (result & _ & Hoffered).
  - intros [|y [|z pre]] x post Heq; simplify_eq/=; try reflexivity.
    by destruct pre.
  - exact Hoffered.
Defined.

Lemma assemblerFunc_empty_batch_witness :
  assemblerFunc Demo.env 1 [mkGraph [] []; mkGraph [] []] []
    = ([EvStoreGraph (mkGraph [] []) 1], Returned None).
Proof.
  apply (assemblerFunc_empty_batch Demo.env 1 [mkGraph [] []; mkGraph [] []] []).
  intros g Hg.
  apply elem_of_cons in Hg as [-> | Hg]; [done |].
  apply elem_of_cons in Hg as [-> | Hg]; [done |].
  by apply elem_of_nil in Hg.
Defined.

(** X18: every validation error, the key error or the positional-argument
    error alike, ends [Run] at once: the error is printed, the help is shown,
    the process exits with status 1, and no collector, bus or database call
    is made. *)
Theorem Run_setup_stops_on_invalid_flags
    {Document DocumentTree GuacNode GuacEdge Client : Type}
    (E : @Env Document DocumentTree GuacNode GuacEdge Client)
    visit u p d r key id args (t : @trace Document GuacNode GuacEdge Client) e :
  snd (validateFlags u p d r key id args) = Some e →
  Run_setup E visit u p d r key id args t
    = (t ++ [EvPrintf "unable to validate flags: %v\n" e; EvHelp], Exited 1).
Proof.
  intros Hv. destruct (validateFlags u p d r key id args) as [opts err] eqn:Hflags.
  simpl in Hv; subst err. by apply (Run_setup_rejected E _ _ _ _ _ _ _ _ _ opts).
Qed.

Lemma Run_setup_stops_on_invalid_flags_witness :
  Run_setup Demo.env (map_to_list indices) "neo4j" "secret" "bolt://db" "neo4j" "" "" [] []
    = ([EvPrintf "unable to validate flags: %v\n"
                 (fmt_Errorf "expected positional argument for file_path");
        EvHelp],
       Exited 1).
Proof.
  apply (Run_setup_stops_on_invalid_flags Demo.env (map_to_list indices)
           "neo4j" "secret" "bolt://db" "neo4j" "" "" [] []).
  reflexivity.
Defined.
